(** * Widmark coefficient models (storeroom/src/coefficient.cpp)

    Shallow embedding of the polymorphic coefficient estimators.  A C++
    [double] is Rocq's primitive binary64 [float]; its [+ - * /] are the
    IEEE-754 round-to-nearest operations, evaluated left to right with the
    same precedence as in the C++ source.  A thrown exception is the
    [Throws] branch of [outcome]. *)

From Stdlib Require Import ZArith String List Bool Reals Lra Lia Floats.
Import ListNotations.

Open Scope float_scope.
(* Decimal constants are rounded to the nearest binary64, as a C++ compiler
   does with its [double] literals. *)
Local Set Warnings "-inexact-float".

(** ** Data model *)

(** [enum class Sex { M, F };] : an enumeration with the fixed underlying
    type [int]; the enumerators are 0 and 1, and every other [int] is a
    value of the type too (e.g. [static_cast<Sex>(2)]). *)
Definition Sex := Z.
Definition Sex_M : Sex := 0%Z.
Definition Sex_F : Sex := 1%Z.

(** The concrete subclasses of [abc_Widmark]. *)
Inductive Strategy := Widmark | Watson | Forrest | Seidl | Ulrich | Average.

(** A thrown C++ exception: its dynamic type and its [what()] message. *)
Record exception := mk_exception { exn_type : string; what : string }.

Definition invalid_argument (msg : string) : exception :=
  mk_exception "std::invalid_argument" msg.

(** Outcome of a call: a returned value, or a thrown exception. *)
Inductive outcome (A : Type) :=
| Returns (a : A)
| Throws (e : exception).
Arguments Returns {A} a.
Arguments Throws {A} e.

(** ** The virtual methods [forward_F] and [forward_M] of each class *)

Definition forward_F (s : Strategy) (H W g : float) : outcome float :=
  match s with
  | Widmark => Returns 0.55
  | Watson => Returns (0.29218 + (12.666 * H - 2.4846) / W)
  | Forrest => Returns (0.8736 - 0.0124 * W / (H * H))
  | Seidl => Returns (0.31223 - 0.006446 * W + 0.4466 * H)
  | Ulrich => Throws (invalid_argument "No estimator available")
  | Average =>
      Returns (0.50766 + 0.11165 * H - W * (0.001612 + 0.0031 / (H * H))
               - (1 / W) * (0.62115 - 3.1665 * H))
  end.

Definition forward_M (s : Strategy) (H W g : float) : outcome float :=
  match s with
  | Widmark => Returns 0.68
  | Watson => Returns (0.39834 + (12.725 * H - 0.11275 * g + 2.8993) / W)
  | Forrest => Returns (1.0178 - 0.012127 * W / (H * H))
  | Seidl => Returns (0.31608 - 0.004821 * W + 0.4632 * H)
  | Ulrich => Returns (0.715 - 0.00462 * W + 0.22 * H)
  | Average =>
      Returns (0.62544 + 0.13664 * H - W * (0.00189 + 0.002425 / (H * H))
               + (1 / W) * (0.57986 + 2.545 * H - 0.02255 * g))
  end.

(** [abc_Widmark::operator()(Sex sex, double H, double W, double g)]. *)
Definition call (s : Strategy) (sex : Sex) (H W g : float) : outcome float :=
  if Z.eqb sex Sex_F then forward_F s H W g
  else if Z.eqb sex Sex_M then forward_M s H W g
  else Throws (invalid_argument "Invalid sex").

(** ** The demonstration driver [main] *)

(** [std::cout] is the sequence of items inserted into it. *)
Inductive token := TStr (s : string) | TDouble (d : float) | TEndl.

Record World := mk_world { cout : list token }.

(** Computations over the program state that may throw. *)
Definition M (A : Type) := World -> outcome A * World.

Definition ret {A} (a : A) : M A := fun w => (Returns a, w).
Definition bind {A B} (m : M A) (k : A -> M B) : M B :=
  fun w => match m w with
           | (Returns a, w') => k a w'
           | (Throws e, w') => (Throws e, w')
           end.
Notation "x <- m ;; k" := (bind m (fun x => k))
  (at level 61, m at next level, right associativity).

Definition emit (t : token) : M unit :=
  fun w => (Returns tt, mk_world (cout w ++ [t])).

(** [strategy(sex, H, W, g)] invoked on an object: a [const] member function
    of an empty class, so it reads and writes nothing. *)
Definition call_m (s : Strategy) (sex : Sex) (H W g : float) : M float :=
  fun w => (call s sex H W g, w).

(** [try { body } catch (const std::invalid_argument &e) { handler e }] *)
Definition try_catch {A} (body : M A) (handler : exception -> M A) : M A :=
  fun w => match body w with
           | (Throws e, w') =>
               if String.eqb (exn_type e) "std::invalid_argument"
               then handler e w' else (Throws e, w')
           | r => r
           end.

(** One statement of [main]: [std::cout << label << obj(sex, H, W, g) << std::endl;]
    optionally wrapped in the [try]/[catch] that prints [e.what()].  Since
    C++17 the operands of [<<] are sequenced left to right, so the label is
    inserted before the call is evaluated. *)
Record stmt := mk_stmt {
  st_label : string; st_obj : Strategy; st_sex : Sex;
  st_args : float * float * float; st_guarded : bool }.

Definition print_call (st : stmt) : M unit :=
  let '(H, W, g) := st_args st in
  _ <- emit (TStr (st_label st)) ;;
  r <- call_m (st_obj st) (st_sex st) H W g ;;
  _ <- emit (TDouble r) ;;
  emit TEndl.

Definition exec_stmt (st : stmt) : M unit :=
  if st_guarded st then
    try_catch (print_call st)
      (fun e => _ <- emit (TStr (st_label st)) ;;
                _ <- emit (TStr (what e)) ;;
                emit TEndl)
  else print_call st.

Fixpoint exec_stmts (l : list stmt) : M unit :=
  match l with
  | [] => ret tt
  | st :: l' => _ <- exec_stmt st ;; exec_stmts l'
  end.

(** The locals of [main]. *)
Definition main_H : float := 170.0.
Definition main_W : float := 70.0.
Definition main_g : float := 18.0.

Definition main_stmts : list stmt :=
  let a := (main_H, main_W, main_g) in
  [ mk_stmt "Widmark (F): " Widmark Sex_F a false;
    mk_stmt "Widmark (M): " Widmark Sex_M a false;
    mk_stmt "Watson (F): " Watson Sex_F a false;
    mk_stmt "Watson (M): " Watson Sex_M a false;
    mk_stmt "Forrest (F): " Forrest Sex_F a false;
    mk_stmt "Forrest (M): " Forrest Sex_M a false;
    mk_stmt "Seidl (F): " Seidl Sex_F a false;
    mk_stmt "Seidl (M): " Seidl Sex_M a false;
    mk_stmt "Ulrich (F): " Ulrich Sex_F a true;
    mk_stmt "Ulrich (M): " Ulrich Sex_M a false;
    mk_stmt "Average (F): " Average Sex_F a false;
    mk_stmt "Average (M): " Average Sex_M a false ].

Definition main : M Z := _ <- exec_stmts main_stmts ;; ret 0%Z.

(** ** The formula table of the specification (section 4.1)

    Written after the table, independently of the classes above: [None]
    marks the Ulrich female entry, which has no formula. *)
Definition sq (x : float) : float := x * x.

Definition spec_table (s : Strategy) (female : bool) (H W g : float) : option float :=
  match s, female with
  | Widmark, true => Some 0.55
  | Widmark, false => Some 0.68
  | Watson, true => Some (0.29218 + (12.666 * H - 2.4846) / W)
  | Watson, false => Some (0.39834 + (12.725 * H - 0.11275 * g + 2.8993) / W)
  | Forrest, true => Some (0.8736 - 0.0124 * W / sq H)
  | Forrest, false => Some (1.0178 - 0.012127 * W / sq H)
  | Seidl, true => Some (0.31223 - 0.006446 * W + 0.4466 * H)
  | Seidl, false => Some (0.31608 - 0.004821 * W + 0.4632 * H)
  | Ulrich, true => None
  | Ulrich, false => Some (0.715 - 0.00462 * W + 0.22 * H)
  | Average, true =>
      Some (0.50766 + 0.11165 * H - W * (0.001612 + 0.0031 / sq H)
            - (1 / W) * (0.62115 - 3.1665 * H))
  | Average, false =>
      Some (0.62544 + 0.13664 * H - W * (0.00189 + 0.002425 / sq H)
            + (1 / W) * (0.57986 + 2.545 * H - 0.02255 * g))
  end.

Definition sex_of (female : bool) : Sex := if female then Sex_F else Sex_M.

(** Kind of the error a call fails with, if it fails. *)
Definition error_kind {A} (o : outcome A) : option string :=
  match o with Returns _ => None | Throws e => Some (exn_type e) end.

(** The divisors of each formula, as written in the source: [W] in
    Watson, [H * H] in Forrest, both in Average; none elsewhere.  [is_zero]
    holds of [+0.0] and [-0.0]. *)
Definition divides_by_zero (s : Strategy) (H W : float) : bool :=
  match s with
  | Watson => is_zero W
  | Forrest => is_zero (H * H)
  | Average => is_zero W || is_zero (H * H)
  | _ => false
  end.

(** An IEEE-754 datum that is not a finite number: an infinity or NaN. *)
Definition sf_nonfinite (f : spec_float) : Prop :=
  match f with S754_infinity _ | S754_nan => True | _ => False end.

(** Powers of two as real numbers, the scale of a binary64 exponent. *)
Definition P2 (z : Z) : R := powerRZ 2 z.

(** [bounded_by f B]: [f] is a zero or a finite datum of magnitude at most
    [B]; infinities and NaN are bounded by nothing. *)
Definition bounded_by (f : spec_float) (B : R) : Prop :=
  match f with
  | S754_zero _ => True
  | S754_finite _ m e => (IZR (Zpos m) * P2 e <= B)%R
  | _ => False
  end.

(** ** Output of the driver's statements *)

(** The tokens one statement of [main] appends to [std::cout], read off
    [print_call] and the handler of [exec_stmt]: the label, then either the
    value and [std::endl], or (when the call throws and the handler runs) the
    label again, [e.what()] and [std::endl]. *)
Definition stmt_lines (st : stmt) : list token :=
  let '(H, W, g) := st_args st in
  match call (st_obj st) (st_sex st) H W g with
  | Returns r => [TStr (st_label st); TDouble r; TEndl]
  | Throws e => [TStr (st_label st); TStr (st_label st); TStr (what e); TEndl]
  end.

(** A statement that cannot let an exception escape: it is inside the
    [try]/[catch], or its call returns. *)
Definition stmt_safe (st : stmt) : bool :=
  let '(H, W, g) := st_args st in
  st_guarded st ||
  match call (st_obj st) (st_sex st) H W g with
  | Returns _ => true
  | Throws _ => false
  end.

(** ** Python bindings (modeling/src/coefficient.pybind11.cpp) *)





(** ** Properties *)

(** Evaluated on the specification's sample input. *)
Example watson_f_sample :
  call Watson Sex_F 1.70 70.0 18.0 = Returns 0.56428857142857147.
Proof. vm_compute. reflexivity. Qed.

Example forrest_m_sample :
  call Forrest Sex_M 1.70 70.0 18.0 = Returns 0.72406643598615916.
Proof. vm_compute. reflexivity. Qed.

(** The adjustment does reach the two formulas that use it. *)
Example watson_m_uses_g :
  call Watson Sex_M 1.70 70.0 18.0 <> call Watson Sex_M 1.70 70.0 0.0.
Proof. vm_compute. congruence. Qed.

Example average_m_uses_g :
  call Average Sex_M 1.70 70.0 18.0 <> call Average Sex_M 1.70 70.0 0.0.
Proof. vm_compute. congruence. Qed.

(** C1: for every strategy and both sexes except Ulrich/female, [call]
    returns exactly the double-precision value of the specification's formula
    table; the table has no entry for Ulrich/female. *)
Theorem call_matches_formula_table :
  forall (s : Strategy) (female : bool) (H W g : float),
    match spec_table s female H W g with
    | Some r => call s (sex_of female) H W g = Returns r
    | None => s = Ulrich /\ female = true
    end.
Proof. intros s [|] H W g; destruct s; first [reflexivity | split; reflexivity]. Qed.

(** C2: Ulrich's female branch always throws the "No estimator available"
    error (formula unavailable), directly and through [call]; its male branch
    always returns [0.715 - 0.00462 * W + 0.22 * H]. *)
Theorem ulrich_female_unavailable_male_ok :
  forall H W g : float,
    forward_F Ulrich H W g = Throws (invalid_argument "No estimator available") /\
    call Ulrich Sex_F H W g = Throws (invalid_argument "No estimator available") /\
    forward_M Ulrich H W g = Returns (0.715 - 0.00462 * W + 0.22 * H) /\
    call Ulrich Sex_M H W g = Returns (0.715 - 0.00462 * W + 0.22 * H).
Proof. intros H W g. repeat split. Qed.

(** C3: for every strategy and input, [call] throws the "Invalid sex" error
    exactly when the sex tag is neither [M] nor [F]. *)
Theorem call_invalid_sex_iff :
  forall (s : Strategy) (sex : Sex) (H W g : float),
    call s sex H W g = Throws (invalid_argument "Invalid sex") <->
    (sex <> Sex_M /\ sex <> Sex_F).
Proof.
  intros s sex H W g. unfold call, Sex_M, Sex_F.
  destruct (Z.eqb_spec sex 1%Z) as [->|Hf].
  - split; [destruct s; discriminate | intros [_ C]; congruence].
  - destruct (Z.eqb_spec sex 0%Z) as [->|Hm].
    + split; [destruct s; discriminate | intros [C _]; congruence].
    + split; [intros _; split; assumption | reflexivity].
Qed.

(** C4, as stated: the error of a bad sex tag and the error of Ulrich's
    female branch are of different kinds.  False: both are
    [std::invalid_argument]. *)
Lemma error_kinds_distinct_counterexample :
  ~ (forall (s : Strategy) (x : Sex) (H W g H' W' g' : float),
       x <> Sex_M -> x <> Sex_F ->
       error_kind (call s x H W g) <> error_kind (call Ulrich Sex_F H' W' g')).
Proof.
  intro Hc.
  apply (Hc Widmark 2%Z 1.70 70.0 18.0 1.70 70.0 18.0);
    [discriminate | discriminate | reflexivity].
Qed.

(** C4 (amended): both failures are thrown as the same exception type,
    [std::invalid_argument]; they differ only in their messages, "Invalid
    sex" for a bad sex tag and "No estimator available" for Ulrich's female
    branch. *)
Theorem error_kinds_same_type_distinct_messages :
  forall (s : Strategy) (x : Sex) (H W g H' W' g' : float),
    x <> Sex_M -> x <> Sex_F ->
    call s x H W g = Throws (invalid_argument "Invalid sex") /\
    call Ulrich Sex_F H' W' g' = Throws (invalid_argument "No estimator available") /\
    error_kind (call s x H W g) = Some "std::invalid_argument"%string /\
    error_kind (call Ulrich Sex_F H' W' g') = Some "std::invalid_argument"%string /\
    "Invalid sex"%string <> "No estimator available"%string.
Proof.
  intros s x H W g H' W' g' HM HF.
  assert (E : call s x H W g = Throws (invalid_argument "Invalid sex"))
    by (apply call_invalid_sex_iff; split; assumption).
  rewrite E. repeat split. discriminate.
Qed.

Lemma error_kinds_same_type_distinct_messages_witness :
  (2 <> Sex_M /\ 2 <> Sex_F)%Z /\
  call Watson 2%Z 1.70 70.0 18.0 = Throws (invalid_argument "Invalid sex") /\
  call Ulrich Sex_F 1.70 70.0 18.0 = Throws (invalid_argument "No estimator available") /\
  error_kind (call Watson 2%Z 1.70 70.0 18.0) = Some "std::invalid_argument"%string /\
  error_kind (call Ulrich Sex_F 1.70 70.0 18.0) = Some "std::invalid_argument"%string /\
  "Invalid sex"%string <> "No estimator available"%string.
Proof.
  split; [split; discriminate |].
  apply (error_kinds_same_type_distinct_messages Watson 2%Z 1.70 70.0 18.0 1.70 70.0 18.0);
    discriminate.
Defined.

(** C6: outside Watson/male and Average/male, the adjustment [g] never
    changes the outcome of [call] (for any height and weight). *)
Theorem adjustment_ignored_elsewhere :
  forall (s : Strategy) (sex : Sex) (H W g1 g2 : float),
    ~ (s = Watson /\ sex = Sex_M) -> ~ (s = Average /\ sex = Sex_M) ->
    call s sex H W g1 = call s sex H W g2.
Proof.
  intros s sex H W g1 g2 HW HA. unfold call.
  destruct (Z.eqb_spec sex Sex_F) as [EF|NF].
  - destruct s; reflexivity.
  - destruct (Z.eqb_spec sex Sex_M) as [EM|NM]; [|reflexivity].
    destruct s; try reflexivity; exfalso; auto.
Qed.

Lemma adjustment_ignored_elsewhere_witness :
  call Forrest Sex_M 1.70 70.0 18.0 = call Forrest Sex_M 1.70 70.0 40.0.
Proof.
  apply adjustment_ignored_elsewhere; intros [E _]; discriminate.
Defined.

(** C7: a call reads nothing of the program state and changes none of it;
    two invocations in a row with the same arguments give the same result. *)
Theorem call_pure_deterministic :
  forall (s : Strategy) (sex : Sex) (H W g : float) (w w' : World),
    call_m s sex H W g w = (call s sex H W g, w) /\
    fst (call_m s sex H W g w) = fst (call_m s sex H W g w') /\
    (r1 <- call_m s sex H W g ;; r2 <- call_m s sex H W g ;; ret (r1, r2)) w =
      match call s sex H W g with
      | Returns r => (Returns (r, r), w)
      | Throws e => (Throws e, w)
      end.
Proof.
  intros s sex H W g w w'. repeat split.
  unfold bind, call_m, ret. destruct (call s sex H W g); reflexivity.
Qed.

(** C8: Widmark returns the constants 0.68 (male) and 0.55 (female) for
    every input. *)
Theorem widmark_constants :
  forall H W g : float,
    call Widmark Sex_M H W g = Returns 0.68 /\
    call Widmark Sex_F H W g = Returns 0.55.
Proof. split; reflexivity. Qed.

(** C9, as stated: every invocation of the driver passes (1.70, 70, 18).
    False: the driver's height is 170.0. *)
Lemma driver_sample_input_counterexample :
  ~ Forall (fun st => st_args st = (1.70, 70.0, 18.0)) main_stmts.
Proof.
  intro Hf. inversion Hf as [|st l Hst _]; subst.
  apply (f_equal (fun a => fst (fst a) =? 1.70)) in Hst.
  vm_compute in Hst. discriminate.
Qed.

(** C9 (amended): the driver evaluates all twelve strategy/sex pairs, and
    every invocation passes height 170.0, weight 70.0 and adjustment 18.0. *)
Theorem driver_sample_input :
  Forall (fun st => st_args st = (170.0, 70.0, 18.0)) main_stmts /\
  map (fun st => (st_obj st, st_sex st)) main_stmts =
    [(Widmark, Sex_F); (Widmark, Sex_M); (Watson, Sex_F); (Watson, Sex_M);
     (Forrest, Sex_F); (Forrest, Sex_M); (Seidl, Sex_F); (Seidl, Sex_M);
     (Ulrich, Sex_F); (Ulrich, Sex_M); (Average, Sex_F); (Average, Sex_M)].
Proof. split; [repeat constructor | reflexivity]. Qed.

(** ** Infinities and NaN absorb the arithmetic of the formulas *)

Section NonFinite.

Lemma sf_eqb_refl_finite : forall s m e,
  SFeqb (S754_finite s m e) (S754_finite s m e) = true.
Proof.
  intros [|] m e; unfold SFeqb, SFcompare;
    rewrite Z.compare_refl, Pos.compare_cont_refl; reflexivity.
Qed.

Lemma is_finite_false_iff : forall x : float,
  is_finite x = false <-> sf_nonfinite (Prim2SF x).
Proof.
  intro x. unfold is_finite, is_nan, is_infinity.
  rewrite !FloatAxioms.eqb_spec, abs_spec.
  change (Prim2SF infinity) with (S754_infinity false).
  destruct (Prim2SF x) as [s|s| |s m e]; try destruct s;
    try (rewrite sf_eqb_refl_finite); cbn;
    split; intro; first [exact I | reflexivity | discriminate | contradiction].
Qed.

Lemma is_zero_true : forall x : float,
  is_zero x = true -> exists s, Prim2SF x = S754_zero s.
Proof.
  intros x Hz. unfold is_zero in Hz. rewrite FloatAxioms.eqb_spec in Hz.
  change (Prim2SF zero) with (S754_zero false) in Hz.
  destruct (Prim2SF x) as [s|s| |s m e]; cbn in Hz;
    try destruct s; try discriminate; eauto.
Qed.

Ltac sf_cases x y :=
  destruct x as [sx|sx| |sx mx ex], y as [sy|sy| |sy my ey]; cbn in *;
  try contradiction; try destruct sx; try destruct sy; cbn; exact I.

Lemma sf_add_r : forall x y, sf_nonfinite y -> sf_nonfinite (SF64add x y).
Proof. intros x y Hy. unfold SF64add, SFadd. sf_cases x y. Qed.
Lemma sf_add_l : forall x y, sf_nonfinite x -> sf_nonfinite (SF64add x y).
Proof. intros x y Hx. unfold SF64add, SFadd. sf_cases x y. Qed.
Lemma sf_sub_r : forall x y, sf_nonfinite y -> sf_nonfinite (SF64sub x y).
Proof. intros x y Hy. unfold SF64sub, SFsub. sf_cases x y. Qed.
Lemma sf_sub_l : forall x y, sf_nonfinite x -> sf_nonfinite (SF64sub x y).
Proof. intros x y Hx. unfold SF64sub, SFsub. sf_cases x y. Qed.
Lemma sf_mul_r : forall x y, sf_nonfinite y -> sf_nonfinite (SF64mul x y).
Proof. intros x y Hy. unfold SF64mul, SFmul. sf_cases x y. Qed.
Lemma sf_mul_l : forall x y, sf_nonfinite x -> sf_nonfinite (SF64mul x y).
Proof. intros x y Hx. unfold SF64mul, SFmul. sf_cases x y. Qed.
Lemma sf_div_l : forall x y, sf_nonfinite x -> sf_nonfinite (SF64div x y).
Proof. intros x y Hx. unfold SF64div, SFdiv. sf_cases x y. Qed.
Lemma sf_div_zero : forall x s, sf_nonfinite (SF64div x (S754_zero s)).
Proof. intros [sx|sx| |sx mx ex] s; cbn; exact I. Qed.

Lemma add_nf_r : forall x y, is_finite y = false -> is_finite (x + y) = false.
Proof. intros x y. rewrite !is_finite_false_iff, add_spec. apply sf_add_r. Qed.
Lemma add_nf_l : forall x y, is_finite x = false -> is_finite (x + y) = false.
Proof. intros x y. rewrite !is_finite_false_iff, add_spec. apply sf_add_l. Qed.
Lemma sub_nf_r : forall x y, is_finite y = false -> is_finite (x - y) = false.
Proof. intros x y. rewrite !is_finite_false_iff, sub_spec. apply sf_sub_r. Qed.
Lemma sub_nf_l : forall x y, is_finite x = false -> is_finite (x - y) = false.
Proof. intros x y. rewrite !is_finite_false_iff, sub_spec. apply sf_sub_l. Qed.
Lemma mul_nf_r : forall x y, is_finite y = false -> is_finite (x * y) = false.
Proof. intros x y. rewrite !is_finite_false_iff, mul_spec. apply sf_mul_r. Qed.
Lemma mul_nf_l : forall x y, is_finite x = false -> is_finite (x * y) = false.
Proof. intros x y. rewrite !is_finite_false_iff, mul_spec. apply sf_mul_l. Qed.
Lemma div_nf_l : forall x y, is_finite x = false -> is_finite (x / y) = false.
Proof. intros x y. rewrite !is_finite_false_iff, div_spec. apply sf_div_l. Qed.
Lemma div_by_zero_nf : forall x y, is_zero y = true -> is_finite (x / y) = false.
Proof.
  intros x y Hz. apply is_zero_true in Hz as [s Hs].
  rewrite is_finite_false_iff, div_spec, Hs. apply sf_div_zero.
Qed.

End NonFinite.

Create HintDb nonfinite.
#[local] Hint Resolve add_nf_r add_nf_l sub_nf_r sub_nf_l mul_nf_r mul_nf_l
  div_nf_l div_by_zero_nf : nonfinite.

(** C5: [Watson(F, 1.70, 0.0, 18.0)] returns +infinity without throwing;
    in general no valid call except Ulrich/female throws, and whenever a
    formula divides by zero ([W] or [H * H] equal to +-0) its result is an
    infinity or NaN. *)
Theorem division_by_zero_not_an_error :
  call Watson Sex_F 1.70 0.0 18.0 = Returns infinity /\
  forall (s : Strategy) (sex : Sex) (H W g : float),
    (sex = Sex_M \/ sex = Sex_F) -> ~ (s = Ulrich /\ sex = Sex_F) ->
    exists r, call s sex H W g = Returns r /\
              (divides_by_zero s H W = true -> is_finite r = false).
Proof.
  split; [vm_compute; reflexivity |].
  intros s sex H W g [-> | ->] HU; destruct s;
    try (exfalso; apply HU; split; reflexivity);
    eexists; (split; [reflexivity |]); cbn [divides_by_zero];
    try discriminate; intro Hz;
    try (apply orb_true_iff in Hz as [Hz | Hz]);
    eauto 8 with nonfinite.
Qed.

Lemma division_by_zero_not_an_error_witness :
  divides_by_zero Watson 1.70 0.0 = true /\
  exists r, call Watson Sex_F 1.70 0.0 18.0 = Returns r /\
            (divides_by_zero Watson 1.70 0.0 = true -> is_finite r = false).
Proof.
  split; [vm_compute; reflexivity |].
  apply (proj2 division_by_zero_not_an_error); [right; reflexivity |].
  intros [E _]; discriminate.
Defined.

(** ** Magnitude bounds for rounded sums, differences and products *)

Section FloatBounds.
Local Open Scope Z_scope.

Lemma pow2_pred : forall d, 1 <= d -> 2 ^ d = 2 * 2 ^ (d - 1).
Proof.
  intros d Hd. rewrite <- Z.pow_succ_r by lia. f_equal. lia.
Qed.
Lemma digits2_pos_bounds : forall p, 2 ^ (Zpos (digits2_pos p) - 1) <= Zpos p < 2 ^ Zpos (digits2_pos p).
Proof.
  induction p as [p IH|p IH|]; cbn [digits2_pos].
  3: { cbn. lia. }
  1: change (Zpos p~1) with (2 * Zpos p + 1).
  2: change (Zpos p~0) with (2 * Zpos p).
  all: rewrite Pos2Z.inj_succ.
  all: assert (Hd : 1 <= Zpos (digits2_pos p)) by lia.
  all: generalize dependent (Zpos (digits2_pos p)); intros d IH Hd.
  all: rewrite (pow2_pred d Hd) in IH.
  all: replace (Z.succ d - 1) with d by lia.
  all: rewrite (pow2_pred (Z.succ d)) by lia.
  all: replace (Z.succ d - 1) with d by lia.
  all: rewrite (pow2_pred d Hd).
  all: lia.
Qed.

Lemma shr_1_m : forall mrs, 0 <= shr_m mrs ->
  shr_m (shr_1 mrs) = shr_m mrs / 2 /\ 0 <= shr_m (shr_1 mrs).
Proof.
  intros [m r s] Hm; cbn in Hm |- *.
  rewrite <- Z.div2_div.
  destruct m as [|[p|p|]|p]; cbn; split; try reflexivity; try lia.
Qed.

Lemma iter_shr_1_m : forall p mrs, 0 <= shr_m mrs ->
  shr_m (iter_pos shr_1 p mrs) = shr_m mrs / 2 ^ Zpos p /\
  0 <= shr_m (iter_pos shr_1 p mrs).
Proof.
  induction p as [p IH|p IH|]; intros mrs Hm; cbn [iter_pos].
  - destruct (shr_1_m mrs Hm) as [E1 P1].
    destruct (IH _ P1) as [E2 P2]. destruct (IH _ P2) as [E3 P3].
    split; [|exact P3]. rewrite E3, E2, E1, !Z.div_div by lia.
    f_equal. rewrite (Pos2Z.inj_xI p). replace (2 * Zpos p + 1) with (1 + Zpos p + Zpos p) by lia.
    rewrite !Z.pow_add_r by lia. ring.
  - destruct (IH _ Hm) as [E2 P2]. destruct (IH _ P2) as [E3 P3].
    split; [|exact P3]. rewrite E3, E2, !Z.div_div by lia.
    f_equal. rewrite (Pos2Z.inj_xO p). replace (2 * Zpos p) with (Zpos p + Zpos p) by lia.
    rewrite !Z.pow_add_r by lia. ring.
  - exact (shr_1_m mrs Hm).
Qed.

(** [shr_fexp] on an exact, nonnegative mantissa: the new exponent is the
    larger of the old one and [fexp], and the mantissa is divided by the
    power of two in between (rounded down). *)
Lemma shr_fexp_exact : forall m e, 0 <= m ->
  let e' := Z.max e (fexp prec emax (Zdigits2 m + e)) in
  snd (shr_fexp prec emax m e loc_Exact) = e' /\
  shr_m (fst (shr_fexp prec emax m e loc_Exact)) = m / 2 ^ (e' - e) /\
  0 <= shr_m (fst (shr_fexp prec emax m e loc_Exact)).
Proof.
  intros m e Hm e'. unfold shr_fexp, shr. cbn [shr_record_of_loc].
  subst e'.
  destruct (fexp prec emax (Zdigits2 m + e) - e) eqn:D.
  - cbn. rewrite Z.max_l by lia. rewrite Z.sub_diag, Z.pow_0_r, Z.div_1_r. auto.
  - destruct (iter_shr_1_m p {| shr_m := m; shr_r := false; shr_s := false |} Hm) as [E P].
    cbn in *. rewrite Z.max_r by lia.
    replace (fexp prec emax (Zdigits2 m + e) - e) with (Zpos p) by lia.
    repeat split; [lia | exact E | exact P].
  - cbn. rewrite Z.max_l by lia. rewrite Z.sub_diag, Z.pow_0_r, Z.div_1_r. auto.
Qed.

Lemma round_nearest_even_bounds : forall m l,
  m <= round_nearest_even m l <= m + 1.
Proof.
  intros m [|[| |]]; cbn; try lia. destruct (Z.even m); lia.
Qed.

Lemma P2_pos : forall z, (0 < P2 z)%R.
Proof. intro z. apply powerRZ_lt. lra. Qed.

Lemma P2_add : forall a b, P2 (a + b) = (P2 a * P2 b)%R.
Proof. intros a b. apply powerRZ_add. lra. Qed.

Lemma P2_IZR : forall k, 0 <= k -> P2 k = IZR (2 ^ k).
Proof.
  intros [|p|p] Hk; [reflexivity | | lia].
  unfold P2. rewrite <- Zpower_pos_powerRZ. reflexivity.
Qed.

Lemma P2_le : forall a b, a <= b -> (P2 a <= P2 b)%R.
Proof.
  intros a b Hab. replace b with (a + (b - a)) by lia.
  rewrite P2_add, (P2_IZR (b - a)) by lia.
  pose proof (P2_pos a).
  assert (Hp : 0 < 2 ^ (b - a)) by (apply Z.pow_pos_nonneg; lia).
  assert (H1 : (1 <= IZR (2 ^ (b - a)))%R) by (apply IZR_le; lia).
  nra.
Qed.

Lemma mantissa_lower : forall p e,
  (P2 (Zpos (digits2_pos p) - 1 + e) <= IZR (Zpos p) * P2 e)%R.
Proof.
  intros p e. destruct (digits2_pos_bounds p) as [L _].
  rewrite P2_add, P2_IZR by lia.
  apply Rmult_le_compat_r; [left; apply P2_pos | apply IZR_le; exact L].
Qed.

(** Rounding down by [2 ^ k] then scaling back never increases a mantissa. *)
Lemma div_scale_le : forall m k e, 0 <= k ->
  (IZR (m / 2 ^ k) * P2 (e + k) <= IZR m * P2 e)%R.
Proof.
  intros m k e Hk. rewrite P2_add, (P2_IZR k Hk).
  pose proof (Z.mul_div_le m (2 ^ k) ltac:(apply Z.pow_pos_nonneg; lia)) as L.
  apply IZR_le in L. rewrite mult_IZR in L. pose proof (P2_pos e). nra.
Qed.

Lemma fexp_64 : forall x, fexp prec emax x = Z.max (x - 53) (-1074).
Proof. intro x. reflexivity. Qed.

(** Rounding an exact mantissa whose exponent is at most the canonical one:
    no overflow while the value plus one unit stays below [2 ^ emax], and
    the result is then at most that sum. *)
Lemma round_aux_bound : forall s mx ex,
  let e1 := fexp prec emax (Zpos (digits2_pos mx) + ex) in
  ex <= e1 ->
  (IZR (Zpos mx) * P2 ex + P2 e1 < P2 emax)%R ->
  bounded_by (binary_round_aux prec emax s (Zpos mx) ex loc_Exact)
             (IZR (Zpos mx) * P2 ex + P2 e1).
Proof.
  intros s mx ex e1 Hex Hlt. unfold binary_round_aux.
  pose proof (shr_fexp_exact (Zpos mx) ex ltac:(lia)) as [E1 [M1 P1]].
  destruct (shr_fexp prec emax (Zpos mx) ex loc_Exact) as [mrs' e'] eqn:H1.
  cbn [fst snd] in E1, M1, P1.
  change (Zdigits2 (Zpos mx)) with (Zpos (digits2_pos mx)) in E1, M1.
  fold e1 in E1, M1. rewrite Z.max_r in E1, M1 by exact Hex. subst e'.
  set (q := shr_m mrs') in *.
  set (mr := round_nearest_even q (loc_of_shr_record mrs')).
  pose proof (round_nearest_even_bounds q (loc_of_shr_record mrs')) as Rb.
  fold mr in Rb.
  (* the rounded mantissa at exponent [e1] *)
  assert (K1 : (IZR mr * P2 e1 <= IZR (Zpos mx) * P2 ex + P2 e1)%R).
  { pose proof (div_scale_le (Zpos mx) (e1 - ex) ex ltac:(lia)) as D.
    replace (ex + (e1 - ex)) with e1 in D by lia. rewrite <- M1 in D.
    assert (IZR mr <= IZR q + 1)%R by (rewrite <- plus_IZR; apply IZR_le; lia).
    pose proof (P2_pos e1). nra. }
  pose proof (shr_fexp_exact mr e1 ltac:(lia)) as [E2 [M2 P2']].
  destruct (shr_fexp prec emax mr e1 loc_Exact) as [mrs'' e''] eqn:H2.
  cbn [fst snd] in E2, M2, P2'. rewrite <- E2 in M2.
  assert (K2 : (IZR (shr_m mrs'') * P2 e'' <= IZR mr * P2 e1)%R).
  { rewrite M2.
    pose proof (div_scale_le mr (e'' - e1) e1 ltac:(lia)) as D.
    replace (e1 + (e'' - e1)) with e'' in D by lia. exact D. }
  destruct (shr_m mrs'') as [|m|m] eqn:Hm; [exact I | | lia].
  destruct (Z.leb_spec e'' (emax - prec)) as [Hle|Hgt]; [cbn; lra |].
  exfalso.
  change (emax - prec) with 971 in Hgt.
  assert (HU : (P2 1024 <= IZR (Zpos mx) * P2 ex + P2 e1)%R).
  { rewrite fexp_64 in E2.
    destruct (Z.max_spec e1 (Z.max (Zdigits2 mr + e1 - 53) (-1074)))
      as [[Hc Hmax] | [Hc Hmax]]; rewrite Hmax in E2.
    - (* the second shift moved the exponent: [mr] has [e'' + 53 - e1] digits *)
      assert (Hmr : 0 < mr).
      { destruct (Z.le_gt_cases mr 0) as [Hn|]; [|assumption].
        exfalso. assert (mr / 2 ^ (e'' - e1) <= 0).
        { apply Z.div_le_upper_bound; [apply Z.pow_pos_nonneg; lia | lia]. }
        lia. }
      destruct mr as [|pr|pr] eqn:Emr; try lia.
      change (Zdigits2 (Zpos pr)) with (Zpos (digits2_pos pr)) in *.
      pose proof (mantissa_lower pr e1) as L.
      assert (P2 1024 <= P2 (Zpos (digits2_pos pr) - 1 + e1))%R by (apply P2_le; lia).
      pose proof (P2_pos ex). lra.
    - (* no second shift: the first one already produced [e1 = d + ex - 53] *)
      rewrite E2 in Hgt. unfold e1 in Hgt. rewrite fexp_64 in Hgt.
      pose proof (mantissa_lower mx ex) as L.
      assert (P2 1024 <= P2 (Zpos (digits2_pos mx) - 1 + ex))%R by (apply P2_le; lia).
      pose proof (P2_pos e1). lra. }
  change emax with 1024 in Hlt. lra.
Qed.

Lemma bounded_by_weaken : forall f B B', (B <= B')%R -> bounded_by f B -> bounded_by f B'.
Proof. intros [s|s| |s m e] B B' Hle Hb; cbn in *; auto; lra. Qed.

Lemma P2_m10 : P2 (-10) = (/ 1024)%R.
Proof. unfold P2. cbn. change (Pos.to_nat 10) with 10%nat. f_equal. cbn. ring. Qed.

(** One unit in the last place of an exact value is at most a 1024th of it,
    or the smallest subnormal. *)
Lemma ulp_bound : forall mx ex,
  (P2 (fexp prec emax (Zpos (digits2_pos mx) + ex)) <=
   IZR (Zpos mx) * P2 ex / 1024 + P2 (-1074))%R.
Proof.
  intros mx ex. rewrite fexp_64.
  pose proof (P2_pos (-1074)) as Hpos.
  pose proof (mantissa_lower mx ex) as L.
  destruct (Z.max_spec (Zpos (digits2_pos mx) + ex - 53) (-1074)) as [[_ ->]|[_ ->]];
    [pose proof (P2_pos ex); assert (0 < IZR (Zpos mx))%R by (apply IZR_lt; lia);
      assert (0 <= IZR (Zpos mx) * P2 ex)%R by nra;
      lra |].
  replace (Zpos (digits2_pos mx) + ex - 53)
    with ((Zpos (digits2_pos mx) - 1 + ex) + (-52)) by lia.
  rewrite P2_add.
  assert (P2 (-52) <= P2 (-10))%R by (apply P2_le; lia).
  rewrite P2_m10 in H.
  pose proof (P2_pos (Zpos (digits2_pos mx) - 1 + ex)). pose proof (P2_pos (-52)).
  assert (P2 (Zpos (digits2_pos mx) - 1 + ex) * P2 (-52) <=
          P2 (Zpos (digits2_pos mx) - 1 + ex) * / 1024)%R
    by (apply Rmult_le_compat_l; lra).
  lra.
Qed.

Lemma iter_xO_spec : forall k mx,
  Zpos (Pos.iter xO mx k) = Zpos mx * 2 ^ Zpos k /\
  digits2_pos (Pos.iter xO mx k) = (digits2_pos mx + k)%positive.
Proof.
  induction k as [|k IH] using Pos.peano_ind; intro mx.
  - cbn. split; [lia | now rewrite Pos.add_1_r].
  - rewrite Pos.iter_succ. destruct (IH mx) as [E D]. split.
    + change (Zpos (Pos.iter xO mx k)~0) with (2 * Zpos (Pos.iter xO mx k))%Z.
      rewrite E, Pos2Z.inj_succ, Z.pow_succ_r by lia. ring.
    + cbn [digits2_pos]. rewrite D. lia.
Qed.

(** [binary_round] never overflows while the value plus a 1024th of it and
    the smallest subnormal stays below [2 ^ emax]. *)
Lemma round_bound : forall s mx ex,
  let B := (IZR (Zpos mx) * P2 ex)%R in
  (B + B / 1024 + P2 (-1074) < P2 emax)%R ->
  bounded_by (binary_round prec emax s mx ex) (B + B / 1024 + P2 (-1074)).
Proof.
  intros s mx ex B HB. unfold binary_round, shl_align.
  pose proof (ulp_bound mx ex) as U.
  destruct (fexp prec emax (Zpos (digits2_pos mx) + ex) - ex) as [|k|k] eqn:D.
  - apply (bounded_by_weaken _ (B + P2 (fexp prec emax (Zpos (digits2_pos mx) + ex))));
      [unfold B in *; lra |].
    apply round_aux_bound; [lia | unfold B in *; lra].
  - apply (bounded_by_weaken _ (B + P2 (fexp prec emax (Zpos (digits2_pos mx) + ex))));
      [unfold B in *; lra |].
    apply round_aux_bound; [lia | unfold B in *; lra].
  - destruct (iter_xO_spec k mx) as [E Dg].
    set (ez := fexp prec emax (Zpos (digits2_pos mx) + ex)) in *.
    assert (Hv : (IZR (Zpos (Pos.iter xO mx k)) * P2 ez = B)%R).
    { rewrite E, mult_IZR, <- P2_IZR by lia. unfold B.
      replace (P2 ex) with (P2 (Zpos k + ez)) by (f_equal; lia).
      rewrite P2_add. ring. }
    assert (He : fexp prec emax (Zpos (digits2_pos (Pos.iter xO mx k)) + ez) = ez).
    { rewrite Dg, Pos2Z.inj_add. unfold ez at 2.
      replace (Zpos (digits2_pos mx) + Zpos k + ez)
        with (Zpos (digits2_pos mx) + ex) by lia. reflexivity. }
    pose proof (round_aux_bound s (Pos.iter xO mx k) ez) as R.
    cbv zeta in R. rewrite He, Hv in R.
    apply (bounded_by_weaken _ (B + P2 ez)); [unfold B in *; lra |].
    apply R; [lia | unfold B in *; lra].
Qed.

Lemma shl_align_value : forall mx ex ez, ez <= ex ->
  (IZR (Zpos (fst (shl_align mx ex ez))) * P2 ez = IZR (Zpos mx) * P2 ex)%R.
Proof.
  intros mx ex ez Hle. unfold shl_align.
  destruct (ez - ex) as [|k|k] eqn:D; cbn [fst].
  - f_equal. f_equal. lia.
  - lia.
  - destruct (iter_xO_spec k mx) as [E _]. rewrite E, mult_IZR, <- P2_IZR by lia.
    replace (P2 ex) with (P2 (Zpos k + ez)) by (f_equal; lia).
    rewrite P2_add. ring.
Qed.

Lemma cond_Zopp_abs : forall s z, Rabs (IZR (cond_Zopp s z)) = Rabs (IZR z).
Proof.
  intros [|] z; cbn; [rewrite opp_IZR, Rabs_Ropp|]; reflexivity.
Qed.

Lemma normalize_bound : forall m e B,
  (Rabs (IZR m) * P2 e <= B)%R ->
  (B + B / 1024 + P2 (-1074) < P2 emax)%R ->
  bounded_by (binary_normalize prec emax m e false) (B + B / 1024 + P2 (-1074)).
Proof.
  intros [|p|p] e B Hm HB; cbn [binary_normalize]; [exact I | |].
  2: change (IZR (Zneg p)) with (- IZR (Zpos p))%R in Hm; rewrite Rabs_Ropp in Hm.
  all: rewrite Rabs_pos_eq in Hm by (apply IZR_le; lia).
  all: pose proof (P2_pos e); assert (0 < IZR (Zpos p))%R by (apply IZR_lt; lia).
  all: apply (bounded_by_weaken _
         (IZR (Zpos p) * P2 e + IZR (Zpos p) * P2 e / 1024 + P2 (-1074))); [lra |].
  all: apply round_bound; lra.
Qed.

(** The exact sum or difference of two finite operands, aligned on the
    smaller exponent, is at most the sum of their magnitudes. *)
Lemma aligned_bound : forall sx mx ex sy my ey (op : Z -> Z -> Z),
  (forall a b, Rabs (IZR (op a b)) <= Rabs (IZR a) + Rabs (IZR b))%R ->
  let ez := Z.min ex ey in
  (Rabs (IZR (op (cond_Zopp sx (Zpos (fst (shl_align mx ex ez))))
                 (cond_Zopp sy (Zpos (fst (shl_align my ey ez)))))) * P2 ez <=
   IZR (Zpos mx) * P2 ex + IZR (Zpos my) * P2 ey)%R.
Proof.
  intros sx mx ex sy my ey op Hop ez.
  pose proof (P2_pos ez).
  pose proof (Hop (cond_Zopp sx (Zpos (fst (shl_align mx ex ez))))
                  (cond_Zopp sy (Zpos (fst (shl_align my ey ez))))) as T.
  rewrite !cond_Zopp_abs, (Rabs_pos_eq (IZR (Zpos (fst (shl_align mx ex ez)))) ),
    (Rabs_pos_eq (IZR (Zpos (fst (shl_align my ey ez))))) in T
    by (apply IZR_le; lia).
  rewrite <- (shl_align_value mx ex ez), <- (shl_align_value my ey ez) by lia.
  nra.
Qed.

Lemma add_triangle : forall a b, (Rabs (IZR (a + b)) <= Rabs (IZR a) + Rabs (IZR b))%R.
Proof. intros a b. rewrite plus_IZR. apply Rabs_triang. Qed.

Lemma sub_triangle : forall a b, (Rabs (IZR (a - b)) <= Rabs (IZR a) + Rabs (IZR b))%R.
Proof.
  intros a b. rewrite minus_IZR. unfold Rminus.
  eapply Rle_trans; [apply Rabs_triang | rewrite Rabs_Ropp; lra].
Qed.

Section Bounds.

Local Abbreviation t := (P2 (-1074)).

Lemma sf_add_bound : forall x y Bx By,
  (0 <= Bx)%R -> (0 <= By)%R -> bounded_by x Bx -> bounded_by y By ->
  ((Bx + By) + (Bx + By) / 1024 + t < P2 emax)%R ->
  bounded_by (SF64add x y) ((Bx + By) + (Bx + By) / 1024 + t).
Proof.
  intros x y Bx By H0x H0y Hx Hy HS. pose proof (P2_pos (-1074)).
  destruct x as [sx|sx| |sx mx ex], y as [sy|sy| |sy my ey];
    cbn [bounded_by] in Hx, Hy; try contradiction.
  - unfold SF64add, SFadd. destruct sx, sy; exact I.
  - unfold SF64add, SFadd. cbn [bounded_by]. lra.
  - unfold SF64add, SFadd. cbn [bounded_by]. lra.
  - unfold SF64add, SFadd. cbv zeta.
    apply normalize_bound; [| exact HS].
    pose proof (aligned_bound sx mx ex sy my ey Z.add add_triangle) as A.
    cbv zeta in A. lra.
Qed.

Lemma sf_sub_bound : forall x y Bx By,
  (0 <= Bx)%R -> (0 <= By)%R -> bounded_by x Bx -> bounded_by y By ->
  ((Bx + By) + (Bx + By) / 1024 + t < P2 emax)%R ->
  bounded_by (SF64sub x y) ((Bx + By) + (Bx + By) / 1024 + t).
Proof.
  intros x y Bx By H0x H0y Hx Hy HS. pose proof (P2_pos (-1074)).
  destruct x as [sx|sx| |sx mx ex], y as [sy|sy| |sy my ey];
    cbn [bounded_by] in Hx, Hy; try contradiction.
  - unfold SF64sub, SFsub. destruct sx, sy; exact I.
  - unfold SF64sub, SFsub. cbn [bounded_by]. lra.
  - unfold SF64sub, SFsub. cbn [bounded_by]. lra.
  - unfold SF64sub, SFsub. cbv zeta.
    apply normalize_bound; [| exact HS].
    pose proof (aligned_bound sx mx ex sy my ey Z.sub sub_triangle) as A.
    cbv zeta in A. lra.
Qed.

(** A valid finite double is below [2 ^ emax]. *)
Lemma valid_finite_facts : forall s m e,
  valid_binary (S754_finite s m e) = true ->
  (Zpos (digits2_pos m) <= 53 /\ e <= 971)%Z.
Proof.
  intros s m e Hv. cbn in Hv. unfold bounded, canonical_mantissa in Hv.
  apply andb_prop in Hv as [Hc He]. apply Z.eqb_eq in Hc. apply Z.leb_le in He.
  rewrite fexp_64 in Hc. change (emax - prec) with 971 in He. lia.
Qed.

Lemma valid_finite_below : forall s m e,
  valid_binary (S754_finite s m e) = true ->
  (IZR (Zpos m) * P2 e <= P2 emax)%R.
Proof.
  intros s m e Hv. destruct (valid_finite_facts s m e Hv) as [Hd He].
  destruct (digits2_pos_bounds m) as [_ Lt].
  assert (Hm : (IZR (Zpos m) <= P2 53)%R).
  { rewrite P2_IZR by lia. apply IZR_le.
    assert (2 ^ Zpos (digits2_pos m) <= 2 ^ 53) by (apply Z.pow_le_mono_r; lia). lia. }
  assert (P2 e <= P2 971)%R by (apply P2_le; exact He).
  change emax with (53 + 971). rewrite P2_add.
  pose proof (P2_pos e). pose proof (P2_pos 53).
  assert (0 <= IZR (Zpos m))%R by (apply IZR_le; lia).
  nra.
Qed.

Lemma sf_mul_bound : forall sa ma ea y,
  digits2_pos ma = 53%positive -> valid_binary y = true -> ~ sf_nonfinite y ->
  let va := (IZR (Zpos ma) * P2 ea)%R in
  (va * P2 emax + va * P2 emax / 1024 + t < P2 emax)%R ->
  bounded_by (SF64mul (S754_finite sa ma ea) y) (va * P2 emax + va * P2 emax / 1024 + t).
Proof.
  intros sa ma ea y Hd Hv Hf va HB.
  destruct y as [sy|sy| |sy my ey]; [exact I | exfalso; exact (Hf I) | exfalso; exact (Hf I) |].
  unfold SF64mul, SFmul.
  pose proof (valid_finite_below sy my ey Hv) as Hy.
  pose proof (digits2_pos_bounds ma) as [La _]. rewrite Hd in La.
  pose proof (digits2_pos_bounds (ma * my)) as [_ Lp].
  assert (Hdp : 53 <= Zpos (digits2_pos (ma * my))).
  { destruct (Z.le_gt_cases 53 (Zpos (digits2_pos (ma * my)))) as [|Hlt]; [assumption|].
    assert (2 ^ Zpos (digits2_pos (ma * my)) <= 2 ^ 52) by (apply Z.pow_le_mono_r; lia).
    rewrite Pos2Z.inj_mul in Lp. cbn in La. nia. }
  pose proof (ulp_bound (ma * my) (ea + ey)) as U.
  assert (Hv' : (IZR (Zpos (ma * my)) * P2 (ea + ey) = va * (IZR (Zpos my) * P2 ey))%R).
  { rewrite Pos2Z.inj_mul, mult_IZR, P2_add. unfold va. ring. }
  rewrite Hv' in U.
  assert (Hva : (0 < va)%R).
  { unfold va. pose proof (P2_pos ea). assert (0 < IZR (Zpos ma))%R by (apply IZR_lt; lia). nra. }
  assert (Hprod : (va * (IZR (Zpos my) * P2 ey) <= va * P2 emax)%R)
    by (apply Rmult_le_compat_l; lra).
  pose proof (P2_pos (-1074)).
  apply (bounded_by_weaken _ (IZR (Zpos (ma * my)) * P2 (ea + ey) +
     P2 (fexp prec emax (Zpos (digits2_pos (ma * my)) + (ea + ey))))).
  - rewrite Hv'. lra.
  - apply round_aux_bound.
    + rewrite fexp_64. lia.
    + rewrite Hv'. lra.
Qed.

End Bounds.


End FloatBounds.

Section Affine.
Local Open Scope Z_scope.

Lemma mantissa_upper : forall m e,
  (IZR (Zpos m) * P2 e <= P2 (Zpos (digits2_pos m) + e))%R.
Proof.
  intros m e. destruct (digits2_pos_bounds m) as [_ L].
  rewrite P2_add, (P2_IZR (Zpos (digits2_pos m))) by lia.
  pose proof (P2_pos e). apply Rmult_le_compat_r; [lra |].
  apply IZR_le. lia.
Qed.

Lemma P2_inv : forall n, 0 <= n -> (P2 (- n) * IZR (2 ^ n) = 1)%R.
Proof.
  intros n Hn. rewrite <- P2_IZR by exact Hn. rewrite <- P2_add.
  replace (- n + n) with 0 by lia. reflexivity.
Qed.

Lemma P2_huge : (1000000 <= P2 emax)%R.
Proof. change emax with 1024. rewrite P2_IZR by lia. apply IZR_le. apply Z.leb_le. reflexivity. Qed.

Lemma P2_tiny : (0 < P2 (-1074) <= 1)%R.
Proof. split; [apply P2_pos |]. apply (P2_le (-1074) 0). lia. Qed.

Lemma bounded_finite : forall x B, bounded_by (Prim2SF x) B -> is_finite x = true.
Proof.
  intros x B Hb. destruct (is_finite x) eqn:E; [reflexivity |].
  apply is_finite_false_iff in E.
  destruct (Prim2SF x); cbn in E, Hb; contradiction.
Qed.

Lemma finite_not_nonfinite : forall x, is_finite x = true -> ~ sf_nonfinite (Prim2SF x).
Proof.
  intros x Hx Hn. apply is_finite_false_iff in Hn. congruence.
Qed.

(** [c0 - a * W + b * H] with positive constants [c0 <= 1], [a <= 1/128] and
    [b <= 1/2] (each a full 53-bit mantissa but [c0]) is finite whenever [H]
    and [W] are: no intermediate value can reach the overflow threshold. *)
Lemma affine_finite : forall (c0 a b H W : float) mc ec ma ea mb eb,
  Prim2SF c0 = S754_finite false mc ec ->
  Prim2SF a = S754_finite false ma ea ->
  Prim2SF b = S754_finite false mb eb ->
  digits2_pos ma = 53%positive -> digits2_pos mb = 53%positive ->
  Zpos (digits2_pos mc) + ec <= 0 ->
  Zpos (digits2_pos ma) + ea <= -7 ->
  Zpos (digits2_pos mb) + eb <= -1 ->
  is_finite H = true -> is_finite W = true ->
  is_finite (c0 - a * W + b * H)%float = true.
Proof.
  intros c0 a b H W mc ec ma ea mb eb Hc Ha Hb Hda Hdb Ec Ea Eb FH FW.
  pose proof (mantissa_upper mc ec) as Uc.
  pose proof (mantissa_upper ma ea) as Ua.
  pose proof (mantissa_upper mb eb) as Ub.
  pose proof (P2_le _ _ Ec) as Lc. pose proof (P2_le _ _ Ea) as La.
  pose proof (P2_le _ _ Eb) as Lb.
  pose proof (P2_inv 7 ltac:(lia)) as I7. pose proof (P2_inv 1 ltac:(lia)) as I1.
  change (P2 0) with 1%R in Lc.
  change (P2 (- 7) * IZR 128 = 1)%R in I7. change (P2 (- 1) * IZR 2 = 1)%R in I1.
  pose proof P2_huge as HU. pose proof P2_tiny as Ht.
  assert (0 <= IZR (Zpos mc) * P2 ec)%R
    by (pose proof (P2_pos ec); assert (0 < IZR (Zpos mc))%R by (apply IZR_lt; lia); nra).
  assert (0 <= IZR (Zpos ma) * P2 ea)%R
    by (pose proof (P2_pos ea); assert (0 < IZR (Zpos ma))%R by (apply IZR_lt; lia); nra).
  assert (0 <= IZR (Zpos mb) * P2 eb)%R
    by (pose proof (P2_pos eb); assert (0 < IZR (Zpos mb))%R by (apply IZR_lt; lia); nra).
  assert (Ka : (IZR (Zpos ma) * P2 ea * P2 emax <= P2 emax / 128)%R) by nra.
  assert (Kb : (IZR (Zpos mb) * P2 eb * P2 emax <= P2 emax / 2)%R) by nra.
  assert (0 <= IZR (Zpos ma) * P2 ea * P2 emax)%R by nra.
  assert (0 <= IZR (Zpos mb) * P2 eb * P2 emax)%R by nra.
  assert (A1 := sf_mul_bound false ma ea (Prim2SF W) Hda (Prim2SF_valid W)
                  (finite_not_nonfinite W FW)).
  assert (A3 := sf_mul_bound false mb eb (Prim2SF H) Hdb (Prim2SF_valid H)
                  (finite_not_nonfinite H FH)).
  cbv zeta in A1, A3.
  specialize (A1 ltac:(lra)). specialize (A3 ltac:(lra)).
  assert (A0 : bounded_by (S754_finite false mc ec) (IZR (Zpos mc) * P2 ec))
    by (cbn; lra).
  assert (A2 := fun h1 h2 h3 => sf_sub_bound _ _ _ _ h1 h2 A0 A1 h3).
  specialize (A2 ltac:(lra) ltac:(lra) ltac:(lra)).
  assert (A4 := fun h1 h2 h3 => sf_add_bound _ _ _ _ h1 h2 A2 A3 h3).
  specialize (A4 ltac:(lra) ltac:(lra) ltac:(lra)).
  eapply bounded_finite.
  rewrite add_spec, sub_spec, !mul_spec, Hc, Ha, Hb. exact A4.
Qed.

End Affine.

(** C10: Widmark and Seidl divide by nothing; for every finite height and
    weight (any adjustment) and either sex, their call returns a finite
    double.  Widmark returns a finite constant, and Seidl's
    [c0 - a * W + b * H] cannot overflow since its constants are below 1. *)
Theorem widmark_seidl_finite : forall sex H W g,
  (sex = Sex_M \/ sex = Sex_F) -> is_finite H = true -> is_finite W = true ->
  (exists r, call Widmark sex H W g = Returns r /\ is_finite r = true) /\
  (exists r, call Seidl sex H W g = Returns r /\ is_finite r = true).
Proof.
  intros sex H W g [-> | ->] FH FW; cbn; split; eexists; split; try reflexivity.
  - apply (affine_finite _ _ _ H W 5693991080877066 (-54) 5558234573709609 (-60)
             8344269389592055 (-54)); first [reflexivity | discriminate | assumption].
  - apply (affine_finite _ _ _ H W 5624635646615560 (-54) 7431732018695736 (-60)
             8045230374334654 (-54)); first [reflexivity | discriminate | assumption].
Qed.

Lemma widmark_seidl_finite_witness :
  (Sex_F = Sex_M \/ Sex_F = Sex_F) /\ is_finite 0.0 = true /\ is_finite 0.0 = true /\
  ((exists r, call Widmark Sex_F 0.0 0.0 18.0 = Returns r /\ is_finite r = true) /\
   (exists r, call Seidl Sex_F 0.0 0.0 18.0 = Returns r /\ is_finite r = true)).
Proof.
  split; [right; reflexivity |]. split; [reflexivity |]. split; [reflexivity |].
  apply (widmark_seidl_finite Sex_F 0.0 0.0 18.0); [right; reflexivity | reflexivity | reflexivity].
Defined.

(** ** NaN inputs, sign of the height, zero weight *)

Section Propagation.

Lemma float_eq_of_sf : forall x y : float, Prim2SF x = Prim2SF y -> x = y.
Proof.
  intros x y E. rewrite <- (FloatAxioms.SF2Prim_Prim2SF x),
    <- (FloatAxioms.SF2Prim_Prim2SF y), E. reflexivity.
Qed.

Lemma is_nan_spec : forall x : float, is_nan x = true <-> Prim2SF x = S754_nan.
Proof.
  intro x. unfold is_nan. rewrite FloatAxioms.eqb_spec.
  destruct (Prim2SF x) as [s|s| |s m e]; try destruct s;
    try (rewrite sf_eqb_refl_finite); cbn;
    split; intro; first [reflexivity | discriminate].
Qed.

Lemma sf_add_nan_l : forall y, SF64add S754_nan y = S754_nan.
Proof. reflexivity. Qed.
Lemma sf_add_nan_r : forall x, SF64add x S754_nan = S754_nan.
Proof. intros [| | |]; reflexivity. Qed.
Lemma sf_sub_nan_l : forall y, SF64sub S754_nan y = S754_nan.
Proof. reflexivity. Qed.
Lemma sf_sub_nan_r : forall x, SF64sub x S754_nan = S754_nan.
Proof. intros [| | |]; reflexivity. Qed.
Lemma sf_mul_nan_l : forall y, SF64mul S754_nan y = S754_nan.
Proof. reflexivity. Qed.
Lemma sf_mul_nan_r : forall x, SF64mul x S754_nan = S754_nan.
Proof. intros [| | |]; reflexivity. Qed.
Lemma sf_div_nan_l : forall y, SF64div S754_nan y = S754_nan.
Proof. reflexivity. Qed.
Lemma sf_div_nan_r : forall x, SF64div x S754_nan = S754_nan.
Proof. intros [| | |]; reflexivity. Qed.

End Propagation.

Create Rewrite HintDb sfnan.
#[local] Hint Rewrite sf_add_nan_l sf_add_nan_r sf_sub_nan_l sf_sub_nan_r
  sf_mul_nan_l sf_mul_nan_r sf_div_nan_l sf_div_nan_r : sfnan.

(** Pushes [Prim2SF] through the arithmetic of a formula. *)
Ltac to_sf :=
  repeat first [ rewrite FloatAxioms.add_spec | rewrite FloatAxioms.sub_spec
                | rewrite FloatAxioms.mul_spec | rewrite FloatAxioms.div_spec ].

Section Rounding.
Local Open Scope Z_scope.

(** Rounding an exact non-negative mantissa never produces NaN. *)
Lemma round_aux_not_nan : forall s m e, 0 <= m ->
  binary_round_aux prec emax s m e loc_Exact <> S754_nan.
Proof.
  intros s m e Hm. unfold binary_round_aux.
  destruct (shr_fexp prec emax m e loc_Exact) as [r1 e1] eqn:E1.
  destruct (shr_fexp_exact m e Hm) as [_ [_ P1]]. rewrite E1 in P1. cbn in P1.
  pose proof (round_nearest_even_bounds (shr_m r1) (loc_of_shr_record r1)) as R.
  destruct (shr_fexp prec emax (round_nearest_even (shr_m r1) (loc_of_shr_record r1))
              e1 loc_Exact) as [r2 e2] eqn:E2.
  destruct (shr_fexp_exact (round_nearest_even (shr_m r1) (loc_of_shr_record r1)) e1
              ltac:(lia)) as [_ [_ P2']].
  rewrite E2 in P2'. cbn in P2'.
  destruct (shr_m r2); [discriminate | destruct (_ <=? _); discriminate | lia].
Qed.

End Rounding.

(** The square of a non-NaN double is not NaN. *)
Lemma mul_self_not_nan : forall x : float,
  Prim2SF x <> S754_nan -> Prim2SF (x * x) <> S754_nan.
Proof.
  intros x Hx. rewrite FloatAxioms.mul_spec.
  destruct (Prim2SF x) as [s|s| |s m e]; try discriminate; try contradiction.
  apply round_aux_not_nan. lia.
Qed.

(** X1: the formulas do not validate their inputs: for a valid sex, a NaN
    height or weight makes every strategy but Widmark (and Ulrich/female,
    which throws) return NaN. *)
Theorem nan_input_propagates : forall s sex H W g,
  (sex = Sex_M \/ sex = Sex_F) -> s <> Widmark -> ~ (s = Ulrich /\ sex = Sex_F) ->
  (is_nan H = true \/ is_nan W = true) ->
  exists r, call s sex H W g = Returns r /\ is_nan r = true.
Proof.
  intros s sex H W g Hsex Hw Hu Hn.
  destruct Hsex as [-> | ->]; destruct s;
    try (exfalso; apply Hw; reflexivity);
    try (exfalso; apply Hu; split; reflexivity);
    cbn; eexists; split; try reflexivity; apply is_nan_spec; to_sf;
    destruct Hn as [Hn | Hn]; apply is_nan_spec in Hn; rewrite Hn;
    autorewrite with sfnan; reflexivity.
Qed.

Lemma nan_input_propagates_witness :
  (Sex_F = Sex_M \/ Sex_F = Sex_F) /\ Watson <> Widmark /\
  ~ (Watson = Ulrich /\ Sex_F = Sex_F) /\ (is_nan nan = true \/ is_nan 70.0 = true) /\
  exists r, call Watson Sex_F nan 70.0 18.0 = Returns r /\ is_nan r = true.
Proof.
  split; [right; reflexivity |]. split; [discriminate |].
  split; [intros [E _]; discriminate |]. split; [left; reflexivity |].
  apply (nan_input_propagates Watson Sex_F nan 70.0 18.0);
    [right; reflexivity | discriminate | intros [E _]; discriminate | left; reflexivity].
Defined.

(** X2: the two formulas that read the adjustment [g], Watson and Average
    for men, return NaN when [g] is NaN, whatever the height and weight. *)
Theorem nan_adjustment_propagates : forall H W g,
  is_nan g = true ->
  (exists r, call Watson Sex_M H W g = Returns r /\ is_nan r = true) /\
  (exists r, call Average Sex_M H W g = Returns r /\ is_nan r = true).
Proof.
  intros H W g Hn. apply is_nan_spec in Hn.
  split; cbn; eexists; split; try reflexivity; apply is_nan_spec; to_sf;
    rewrite Hn; autorewrite with sfnan; reflexivity.
Qed.

Lemma nan_adjustment_propagates_witness :
  is_nan nan = true /\
  (exists r, call Watson Sex_M 1.70 70.0 nan = Returns r /\ is_nan r = true) /\
  (exists r, call Average Sex_M 1.70 70.0 nan = Returns r /\ is_nan r = true).
Proof.
  split; [reflexivity |]. apply (nan_adjustment_propagates 1.70 70.0 nan). reflexivity.
Defined.

(** X3: Ulrich's male formula [0.715 - 0.00462 * W + 0.22 * H], like
    Seidl's, returns a finite double for every finite height and weight. *)
Theorem ulrich_male_finite : forall H W g,
  is_finite H = true -> is_finite W = true ->
  exists r, call Ulrich Sex_M H W g = Returns r /\ is_finite r = true.
Proof.
  intros H W g FH FW. cbn. eexists; split; [reflexivity |].
  apply (affine_finite _ _ _ H W 6440147467139809 (-53) 5326497351283633 (-60)
           7926335344172073 (-55)); first [reflexivity | discriminate | assumption].
Qed.

Lemma ulrich_male_finite_witness :
  is_finite 1.70 = true /\ is_finite 70.0 = true /\
  exists r, call Ulrich Sex_M 1.70 70.0 18.0 = Returns r /\ is_finite r = true.
Proof.
  split; [reflexivity |]. split; [reflexivity |].
  apply (ulrich_male_finite 1.70 70.0 18.0); reflexivity.
Defined.


(** X5: for a zero weight ([+0.0] or [-0.0]) Forrest returns its intercept
    exactly (0.8736 for women, 1.0178 for men), provided the height is not
    NaN and its square does not underflow to zero. *)
Theorem forrest_zero_weight_intercept : forall H W g,
  is_zero W = true -> is_nan H = false -> is_zero (H * H) = false ->
  call Forrest Sex_F H W g = Returns 0.8736 /\ call Forrest Sex_M H W g = Returns 1.0178.
Proof.
  intros H W g HW HH HHH.
  destruct (is_zero_true W HW) as [sw Ew].
  assert (Nn : Prim2SF (H * H) <> S754_nan).
  { apply mul_self_not_nan. intro E. apply is_nan_spec in E. congruence. }
  assert (Nz : forall s, Prim2SF (H * H) <> S754_zero s).
  { intros s E. unfold is_zero in HHH. rewrite FloatAxioms.eqb_spec, E in HHH.
    destruct s; discriminate. }
  cbn. split; f_equal; apply float_eq_of_sf;
    rewrite FloatAxioms.sub_spec, FloatAxioms.div_spec, FloatAxioms.mul_spec, Ew;
    destruct (Prim2SF (H * H)) as [s|s| |s m e];
    try (exfalso; apply (Nz s); reflexivity); try contradiction;
    destruct sw, s; vm_compute; reflexivity.
Qed.

Lemma forrest_zero_weight_intercept_witness :
  is_zero 0.0 = true /\ is_nan 1.70 = false /\ is_zero (1.70 * 1.70) = false /\
  (call Forrest Sex_F 1.70 0.0 18.0 = Returns 0.8736 /\
   call Forrest Sex_M 1.70 0.0 18.0 = Returns 1.0178).
Proof.
  split; [reflexivity |]. split; [reflexivity |]. split; [reflexivity |].
  apply (forrest_zero_weight_intercept 1.70 0.0 18.0); reflexivity.
Defined.

(** ** Sequencing of the driver's statements *)

Lemma call_throws_invalid_argument : forall s sex H W g e,
  call s sex H W g = Throws e -> exn_type e = "std::invalid_argument"%string.
Proof.
  intros s sex H W g e. unfold call.
  destruct (Z.eqb sex Sex_F); [| destruct (Z.eqb sex Sex_M)]; destruct s; cbn;
    intro E; inversion E; reflexivity.
Qed.

Lemma exec_stmt_safe : forall st w, stmt_safe st = true ->
  exec_stmt st w = (Returns tt, mk_world (cout w ++ stmt_lines st)).
Proof.
  intros [lab obj sx [[H W] g] gd] w Hs.
  unfold stmt_safe, exec_stmt, stmt_lines, print_call, try_catch, bind, emit, call_m in *.
  cbn [st_args st_label st_obj st_sex st_guarded cout] in *.
  destruct (call obj sx H W g) as [r | e] eqn:C.
  - destruct gd; cbn; rewrite <- !app_assoc; reflexivity.
  - destruct gd; [| discriminate]. cbn.
    rewrite (call_throws_invalid_argument _ _ _ _ _ _ C). cbn.
    rewrite <- !app_assoc; reflexivity.
Qed.

Lemma exec_stmts_safe : forall l w, forallb stmt_safe l = true ->
  exec_stmts l w = (Returns tt, mk_world (cout w ++ flat_map stmt_lines l)).
Proof.
  induction l as [| st l IH]; intros w Hs; cbn.
  - rewrite app_nil_r. destruct w. reflexivity.
  - apply andb_prop in Hs as [H1 H2]. unfold bind.
    rewrite (exec_stmt_safe st w H1), (IH _ H2). cbn. rewrite app_assoc. reflexivity.
Qed.

(** X6: a sequence of statements none of which can let an exception escape
    (each is guarded by the [try]/[catch] or has a call that returns) runs
    to completion and appends exactly each statement's line, in order. *)
Theorem exec_stmts_no_escape : forall l w, forallb stmt_safe l = true ->
  exec_stmts l w = (Returns tt, mk_world (cout w ++ flat_map stmt_lines l)).
Proof. exact exec_stmts_safe. Qed.

Lemma exec_stmts_no_escape_witness :
  forallb stmt_safe main_stmts = true /\
  exec_stmts main_stmts (mk_world []) =
    (Returns tt, mk_world (cout (mk_world []) ++ flat_map stmt_lines main_stmts)).
Proof.
  split; [vm_compute; reflexivity |].
  apply (exec_stmts_no_escape main_stmts (mk_world [])). vm_compute. reflexivity.
Defined.



(** X8: [main] finishes normally and returns 0: the one call that throws,
    Ulrich/female, is inside the [try]/[catch].  It prints one line per
    statement: the label, the value and [std::endl], except for Ulrich
    (F), whose line is the label twice followed by the message. *)
Theorem main_completes : forall w,
  main w = (Returns 0%Z, mk_world (cout w ++ flat_map stmt_lines main_stmts)) /\
  Forall (fun st => st_label st <> "Ulrich (F): "%string ->
            exists r, stmt_lines st = [TStr (st_label st); TDouble r; TEndl]) main_stmts /\
  In [TStr "Ulrich (F): "; TStr "Ulrich (F): "; TStr "No estimator available"; TEndl]
     (map stmt_lines main_stmts).
Proof.
  intro w. split; [| split].
  - unfold main, bind. rewrite exec_stmts_safe by (vm_compute; reflexivity). reflexivity.
  - repeat constructor; intro Hl;
      first [exfalso; apply Hl; reflexivity | eexists; reflexivity].
  - vm_compute. right; right; right; right; right; right; right; right. left. reflexivity.
Qed.

(** ** Calls through the Python bindings *)



